(** * Tic-tac-toe: the game rules of [Game] (components/board.tsx)

    A shallow embedding of the state held by the [Game] component and of
    the handlers that change it: [calculateWinner], [handleClick],
    [restartGame], [selectTheme] and [getInitialTheme]; of what [Board],
    [Square] and the theme dialog render; and of the two effects that
    write the theme to the document and to local storage and show or close
    the dialog.

    The board is a JavaScript array.  [handleClick] reads [squares[i]] and
    writes [nextSquares[i]] for a caller-given number [i] without a range
    check, so the array model spells out what JavaScript does outside the
    current length: reading yields [undefined], writing an array index at
    or beyond the length grows the array (leaving empty slots), and writing
    any other key stores an ordinary property that [slice] does not copy.
    Indices are integers ([Z]); fractional numbers are outside the model. *)

From stdpp Require Import gmap list strings.

Open Scope Z_scope.

(** ** Cells and JavaScript arrays *)

(** The two marks, ["X"] and ["O"]. *)
Inductive mark := X | O.

(** An element of type ["X" | "O" | null]. *)
Inductive cell := Null | Mk (m : mark).

#[global] Instance mark_eq_dec : EqDecision mark.
Proof. solve_decision. Defined.

#[global] Instance cell_eq_dec : EqDecision cell.
Proof. solve_decision. Defined.

(** The result of reading [a[i]]: [None] is [undefined]. *)
Definition value := option cell.

(** [Boolean(v)]: only a mark (a non-empty string) is truthy. *)
Definition truthy (v : value) : bool :=
  match v with
  | Some (Mk _) => true
  | _ => false
  end.

(** [v === w] on the values a board can hold. *)
Definition strict_eq (v w : value) : bool := bool_decide (v = w).

(** An array: its slots up to [length] ([None] is an empty slot, a hole),
    and the properties stored under keys that are not array indices. *)
Record jsarray := JsArray {
  elems : list (option cell);
  props : gmap Z cell
}.

(** Array indices are the integers from 0 to 2^32 - 2. *)
Definition is_index (i : Z) : bool := (0 <=? i) && (i <? 2 ^ 32 - 1).

(** [a[i]] *)
Definition get (a : jsarray) (i : Z) : value :=
  if is_index i then mjoin (elems a !! Z.to_nat i) else props a !! i.

(** Writing slot [n] of the slots [l]: in place below the length, and
    otherwise after as many holes as are needed to reach [n]. *)
Definition write (n : nat) (c : cell) (l : list (option cell)) : list (option cell) :=
  if decide (n < length l)%nat then <[n := Some c]> l
  else l ++ replicate (n - length l) None ++ [Some c].

(** [a[i] = c] *)
Definition put (a : jsarray) (i : Z) (c : cell) : jsarray :=
  if is_index i
  then {| elems := write (Z.to_nat i) c (elems a); props := props a |}
  else {| elems := elems a; props := <[i := c]> (props a) |}.

(** [a.slice()]: a new array with the same slots (holes included) and
    none of the other properties. *)
Definition slice (a : jsarray) : jsarray :=
  {| elems := elems a; props := ∅ |}.

(** [a.every(Boolean)]: empty slots are not visited. *)
Definition every_Boolean (a : jsarray) : bool :=
  forallb (fun s => match s with None => true | Some c => truthy (Some c) end)
          (elems a).

(** [Array(9).fill(null)] *)
Definition Array9_null : jsarray :=
  {| elems := replicate 9 (Some Null); props := ∅ |}.

(** ** Themes *)

Definition THEMES : list string :=
  ["light"; "dark"; "ocean"; "forest"; "sunset"; "lavender"]%string.

(** [THEMES.includes(s)] *)
Definition includes (l : list string) (s : string) : bool :=
  existsb (String.eqb s) l.

(** What [window.matchMedia?.("(prefers-color-scheme: dark)")] can do:
    the function may be missing, it may throw, or it returns a query
    object with its [matches] flag. *)
Inductive media := MediaAbsent | MediaThrows | MediaMatches (b : bool).

(** The environment [getInitialTheme] reads. *)
Record env := Env {
  stored_theme : option string;   (* localStorage.getItem("theme") *)
  prefers_dark : media
}.

(** The [try] block and the final [return]: ["dark"] when the query
    exists, does not throw and matches, ["light"] in every other case. *)
Definition system_theme (m : media) : string :=
  match m with
  | MediaMatches true => "dark"
  | _ => "light"
  end.

Definition getInitialTheme (e : env) : string :=
  match stored_theme e with
  | Some stored =>
      if negb (String.eqb stored "") && includes THEMES stored then stored
      else system_theme (prefers_dark e)
  | None => system_theme (prefers_dark e)
  end.

(** ** The state of [Game] and its handlers *)

Record state := State {
  squares : jsarray;
  isXNext : bool;
  theme : string;
  themeDialogOpen : bool
}.

(** The state of the first render. *)
Definition initial (e : env) : state :=
  {| squares := Array9_null; isXNext := true;
     theme := getInitialTheme e; themeDialogOpen := false |}.

Definition lines : list (Z * Z * Z) :=
  [ (0, 1, 2); (3, 4, 5); (6, 7, 8);   (* rows *)
    (0, 3, 6); (1, 4, 7); (2, 5, 8);   (* columns *)
    (0, 4, 8); (2, 4, 6) ].            (* diagonals *)

(** The loop of [calculateWinner] over the lines still to be checked. *)
Fixpoint scan (sq : jsarray) (ls : list (Z * Z * Z)) : option mark :=
  match ls with
  | [] => None
  | (a, b, c) :: rest =>
      match get sq a with
      | Some (Mk m) =>
          if strict_eq (get sq a) (get sq b) && strict_eq (get sq a) (get sq c)
          then Some m
          else scan sq rest
      | _ => scan sq rest
      end
  end.

(** [calculateWinner(squares)]: ["X"], ["O"] or [null] ([None]). *)
Definition calculateWinner (sq : jsarray) : option mark := scan sq lines.

(** Truthiness of the result of [calculateWinner]. *)
Definition has_winner (w : option mark) : bool :=
  match w with Some _ => true | None => false end.

(** [isXNext ? "X" : "O"] *)
Definition turn_mark (xnext : bool) : mark := if xnext then X else O.

Definition handleClick (st : state) (i : Z) : state :=
  if truthy (get (squares st) i) || has_winner (calculateWinner (squares st))
  then st
  else
    let nextSquares := put (slice (squares st)) i (Mk (turn_mark (isXNext st))) in
    {| squares := nextSquares; isXNext := negb (isXNext st);
       theme := theme st; themeDialogOpen := themeDialogOpen st |}.

Definition restartGame (st : state) : state :=
  {| squares := Array9_null; isXNext := true;
     theme := theme st; themeDialogOpen := themeDialogOpen st |}.

Definition selectTheme (st : state) (t : string) : state :=
  {| squares := squares st; isXNext := isXNext st;
     theme := t; themeDialogOpen := false |}.

(** The settings button and the dialog's close and cancel handlers. *)
Definition setThemeDialogOpen (st : state) (b : bool) : state :=
  {| squares := squares st; isXNext := isXNext st;
     theme := theme st; themeDialogOpen := b |}.

(** The values derived from the state at each render. *)
Definition winner (st : state) : option mark := calculateWinner (squares st).

Definition isDraw (st : state) : bool :=
  every_Boolean (squares st) && negb (has_winner (winner st)).

(** The status line:
    [winner ? `Winner: ${winner}` : isDraw ? "Draw!" : `Next player: ..`]. *)
Inductive status_line :=
  | StatusWinner (m : mark)
  | StatusDraw
  | StatusNext (m : mark).

Definition status (st : state) : status_line :=
  match winner st with
  | Some w => StatusWinner w
  | None => if isDraw st then StatusDraw else StatusNext (turn_mark (isXNext st))
  end.

(** The outcome of a board, as the render derives it from [squares]:
    a winner if [calculateWinner] finds one, else a draw if every slot is
    truthy, else the game is still on. *)
Inductive Outcome := InProgress | Win (m : mark) | Draw.

Definition outcome (sq : jsarray) : Outcome :=
  match calculateWinner sq with
  | Some m => Win m
  | None => if every_Boolean sq then Draw else InProgress
  end.

(** ** Boards, lines and reachable states *)

(** A 9-cell board: nine slots, none of them empty, and nothing else. *)
Definition board9 (sq : jsarray) : Prop :=
  length (elems sq) = 9%nat ∧ Forall is_Some (elems sq) ∧ props sq = ∅.

(** All three cells of a line hold the mark [m]. *)
Definition line_holds (sq : jsarray) (l : Z * Z * Z) (m : mark) : Prop :=
  get sq l.1.1 = Some (Mk m) ∧ get sq l.1.2 = Some (Mk m) ∧ get sq l.2 = Some (Mk m).

(** Some mark fills the line. *)
Definition completed (sq : jsarray) (l : Z * Z * Z) : Prop :=
  ∃ m, line_holds sq l m.

(** Every cell 0..8 holds a mark. *)
Definition all_occupied (sq : jsarray) : Prop :=
  ∀ i, 0 ≤ i ≤ 8 → truthy (get sq i) = true.

Definition other (m : mark) : mark :=
  match m with X => O | O => X end.

(** Number of slots holding the mark [m]. *)
Fixpoint count_mark (m : mark) (l : list (option cell)) : nat :=
  match l with
  | [] => 0
  | s :: l' => (if decide (s = Some (Mk m)) then 1 else 0) + count_mark m l'
  end%nat.

(** The clicks the [Board] component sends are those of its nine squares,
    [row * 3 + k] for [row] and [k] in 0..2.  A state is reachable when a
    sequence of such clicks (accepted or not), restarts and theme changes
    leads to it from the first render. *)
Inductive reachable : state → Prop :=
  | reach_initial e : reachable (initial e)
  | reach_click st i : reachable st → 0 ≤ i ≤ 8 → reachable (handleClick st i)
  | reach_restart st : reachable st → reachable (restartGame st)
  | reach_theme st t : reachable st → reachable (selectTheme st t)
  | reach_dialog st b : reachable st → reachable (setThemeDialogOpen st b).

(** A move the rules allow: a free cell of the grid while the game is on. *)
Definition legal (st : state) (i : Z) : Prop :=
  0 ≤ i ≤ 8 ∧ truthy (get (squares st) i) = false
  ∧ outcome (squares st) = InProgress.

(** The clicks [js], in order, from the state [st]. *)
Definition play (st : state) (js : list Z) : state := fold_left handleClick js st.

(** Both marks have a completed line. *)
Definition both_win (sq : jsarray) : Prop :=
  ∃ l1 l2, l1 ∈ lines ∧ l2 ∈ lines ∧ line_holds sq l1 X ∧ line_holds sq l2 O.

(** The marks on the board agree with the turn: as many ["X"] as ["O"]
    when ["X"] is next, one more otherwise. *)
Definition turn_invariant (st : state) : Prop :=
  board9 (squares st)
  ∧ Z.of_nat (count_mark X (elems (squares st)))
    - Z.of_nat (count_mark O (elems (squares st)))
    = if isXNext st then 0 else 1.

(** Number of ["X"] cells minus number of ["O"] cells. *)
Definition mark_difference (sq : jsarray) : Z :=
  Z.of_nat (count_mark X (elems sq)) - Z.of_nat (count_mark O (elems sq)).

(** ** Sample positions *)

Definition env0 : env := {| stored_theme := None; prefers_dark := MediaAbsent |}.

(** X: 0, O: 4, X: 1, O: 5, X: 2 -- the top row for X. *)
Definition top_row_game : state := play (initial env0) [0; 4; 1; 5; 2].

(** X: 0, O: 1, X: 2, O: 4, X: 3, O: 5, X: 7, O: 6, X: 8 -- a full board
    without a line. *)
Definition drawn_game : state := play (initial env0) [0; 1; 2; 4; 3; 5; 7; 6; 8].

(** A board no game produces: the top row for X and the middle row for O. *)
Definition two_rows : jsarray :=
  {| elems := [Some (Mk X); Some (Mk X); Some (Mk X);
               Some (Mk O); Some (Mk O); Some (Mk O);
               Some Null; Some Null; Some Null];
     props := ∅ |}.

(** The same with the marks exchanged. *)
Definition two_rows_swapped : jsarray :=
  {| elems := [Some (Mk O); Some (Mk O); Some (Mk O);
               Some (Mk X); Some (Mk X); Some (Mk X);
               Some Null; Some Null; Some Null];
     props := ∅ |}.

#[global] Instance line_holds_dec sq l m : Decision (line_holds sq l m).
Proof. unfold line_holds. apply _. Defined.

#[global] Instance completed_dec sq l : Decision (completed sq l).
Proof.
  destruct (decide (line_holds sq l X)) as [HX|HX]; [left; by exists X|].
  destruct (decide (line_holds sq l O)) as [HO|HO]; [left; by exists O|].
  right. intros [[] H]; tauto.
Defined.

(** ** The [Square] and [Board] components *)

Definition mark_string (m : mark) : string :=
  match m with X => "X" | O => "O" end.

(** [s.toLowerCase()], on the ASCII letters. *)
Definition lower_ascii (c : Ascii.ascii) : Ascii.ascii :=
  let n := Ascii.nat_of_ascii c in
  if ((65 <=? n) && (n <=? 90))%nat then Ascii.ascii_of_nat (n + 32) else c.

Fixpoint toLowerCase (s : string) : string :=
  match s with
  | EmptyString => EmptyString
  | String c s' => String (lower_ascii c) (toLowerCase s')
  end.

(** The [<button>] a [Square] renders: its class, its text child (none
    for [null] and [undefined]) and the result of its click handler. *)
Record square_button (A : Type) := SquareButton {
  sq_className : string;
  sq_text : option string;
  sq_onClick : A
}.
Arguments SquareButton {A}.
Arguments sq_className {A}.
Arguments sq_text {A}.
Arguments sq_onClick {A}.

Definition Square {A : Type} (v : value) (onClick : A) : square_button A :=
  let markClass :=
    match v with
    | Some (Mk m) => (" square--" ++ toLowerCase (mark_string m))%string
    | _ => ""%string
    end in
  {| sq_className := ("square" ++ markClass)%string;
     sq_text := match v with Some (Mk m) => Some (mark_string m) | _ => None end;
     sq_onClick := onClick |}.

(** [renderSquare(i)], with the handler [onClick] of the props. *)
Definition renderSquare {A : Type} (sq : jsarray) (onClick : Z → A) (i : Z)
  : square_button A :=
  Square (get sq i) (onClick i).

(** The three [board-row]s of [Board]. *)
Definition Board {A : Type} (sq : jsarray) (onClick : Z → A)
  : list (list (square_button A)) :=
  map (λ row, [ renderSquare sq onClick (row * 3);
                renderSquare sq onClick (row * 3 + 1);
                renderSquare sq onClick (row * 3 + 2) ])
      [0; 1; 2].

(** The mark a value stands for, if any. *)
Definition mark_of (v : value) : option mark :=
  match v with Some (Mk m) => Some m | _ => None end.

(** What a square shows: its class and its text. *)
Definition picture {A : Type} (b : square_button A) : string * option string :=
  (sq_className b, sq_text b).

(** ** The theme dialog *)

Definition themeLabels : gmap string string :=
  list_to_map [ ("light", "Light"); ("dark", "Dark"); ("ocean", "Ocean");
                ("forest", "Forest"); ("sunset", "Sunset");
                ("lavender", "Lavender") ]%string.

(** One [theme-option] button; [tb_label] is [themeLabels[t]]. *)
Record theme_button (A : Type) := ThemeButton {
  tb_key : string;
  tb_className : string;
  tb_preview : string;
  tb_label : option string;
  tb_onClick : A
}.
Arguments ThemeButton {A}.
Arguments tb_key {A}.
Arguments tb_className {A}.
Arguments tb_preview {A}.
Arguments tb_label {A}.
Arguments tb_onClick {A}.

(** [THEMES.map((t) => <button .. />)] for the current theme. *)
Definition theme_options {A : Type} (current : string) (select : string → A)
  : list (theme_button A) :=
  map (λ t, {| tb_key := t;
               tb_className :=
                 ("theme-option " ++
                  (if String.eqb t current then "theme-option--active" else ""))%string;
               tb_preview := t;
               tb_label := themeLabels !! t;
               tb_onClick := select t |})
      THEMES.

Definition is_active {A : Type} (b : theme_button A) : bool :=
  String.eqb (tb_className b) "theme-option theme-option--active".

(** ** Events, effects and the page *)

(** The handlers the rendered page wires up. *)
Inductive event :=
  | ClickSquare (i : Z)         (* a square: [handleClick(i)] *)
  | ClickRestart                (* "Restart Game" and "Play Again" *)
  | OpenSettings                (* the settings button *)
  | CloseDialog                 (* "Close" and the dialog's [onCancel] *)
  | ChooseTheme (t : string).   (* a theme option: [selectTheme(t)] *)

Definition handle (st : state) (ev : event) : state :=
  match ev with
  | ClickSquare i => handleClick st i
  | ClickRestart => restartGame st
  | OpenSettings => setThemeDialogOpen st true
  | CloseDialog => setThemeDialogOpen st false
  | ChooseTheme t => selectTheme st t
  end.

(** The events the page rendered for [st] can send: a square click
    carries an index that a square of [Board] passes to its handler, a
    theme choice a name that an option of the dialog passes to its
    handler (read off by rendering with the identity as handler). *)
Definition offered (st : state) (ev : event) : Prop :=
  match ev with
  | ClickSquare i => i ∈ sq_onClick <$> concat (Board (squares st) id)
  | ChooseTheme t => t ∈ tb_onClick <$> theme_options (theme st) id
  | _ => True
  end.

(** A run of events, each offered by the page at the time. *)
Fixpoint session (st : state) (evs : list event) : Prop :=
  match evs with
  | [] => True
  | ev :: rest => offered st ev ∧ session (handle st ev) rest
  end.

Definition run (st : state) (evs : list event) : state := fold_left handle evs st.

Definition is_theme_event (ev : event) : bool :=
  match ev with
  | ClickSquare _ | ClickRestart => false
  | _ => true
  end.

(** What the two effects write to: the [data-theme] attribute of the root
    element and whether the dialog is shown; the stored preference is the
    [stored_theme] of the environment. *)
Record dom := Dom {
  dataset_theme : option string;
  dialog_shown : bool
}.

Record page := Page {
  ui : state;
  browser : env;
  document : dom
}.

(** The effect on [[theme]]: it sets [dataset.theme] and stores the
    preference ([setItem] is taken to succeed). *)
Definition theme_effect (st : state) (p : env * dom) : env * dom :=
  ({| stored_theme := Some (theme st); prefers_dark := prefers_dark p.1 |},
   {| dataset_theme := Some (theme st); dialog_shown := dialog_shown p.2 |}).

(** The effect on [[themeDialogOpen]]: [showModal()] or [close()] on the
    dialog element, which every render contains, so that the ref is set. *)
Definition dialog_effect (st : state) (p : env * dom) : env * dom :=
  (p.1, {| dataset_theme := dataset_theme p.2; dialog_shown := themeDialogOpen st |}).

(** After a render: each effect runs on mount ([prev = None]) and when
    its dependency differs from the previous render's. *)
Definition run_effects (prev : option state) (st : state) (p : env * dom)
  : env * dom :=
  let theme_changed :=
    match prev with
    | None => true
    | Some old => negb (String.eqb (theme old) (theme st))
    end in
  let dialog_changed :=
    match prev with
    | None => true
    | Some old => negb (Bool.eqb (themeDialogOpen old) (themeDialogOpen st))
    end in
  let p1 := if theme_changed then theme_effect st p else p in
  if dialog_changed then dialog_effect st p1 else p1.

(** Loading the page in the browser environment [e]. *)
Definition mount (e : env) : page :=
  let st := initial e in
  let p := run_effects None st (e, {| dataset_theme := None; dialog_shown := false |}) in
  {| ui := st; browser := p.1; document := p.2 |}.

(** An event: the handler's state update, the render, the effects. *)
Definition dispatch (p : page) (ev : event) : page :=
  let st := handle (ui p) ev in
  let q := run_effects (Some (ui p)) st (browser p, document p) in
  {| ui := st; browser := q.1; document := q.2 |}.

Definition browse (p : page) (evs : list event) : page := fold_left dispatch evs p.

(** The clicks that pass the guard of [handleClick] -- by
    [handleClick_fixed] those that change the state -- counted along a run
    of clicks. *)
Fixpoint accepted_clicks (st : state) (js : list Z) : nat :=
  match js with
  | [] => 0
  | i :: rest =>
      ((if truthy (get (squares st) i) || has_winner (calculateWinner (squares st))
        then 0 else 1)
       + accepted_clicks (handleClick st i) rest)%nat
  end.

(** Number of cells holding a mark. *)
Definition marks (sq : jsarray) : nat :=
  (count_mark X (elems sq) + count_mark O (elems sq))%nat.

(** ** Reading and writing arrays *)

Section Arrays.
Implicit Types (l : list (option cell)) (a : jsarray) (c : cell) (n k : nat).

Lemma write_lookup_eq l n c : mjoin (write n c l !! n) = Some c.
Proof.
  unfold write. case_decide as Hn.
  - by rewrite list_lookup_insert_eq.
  - rewrite lookup_app_r; [|lia].
    rewrite lookup_app_r; rewrite length_replicate; [|lia].
    by rewrite Nat.sub_diag.
Qed.

Lemma write_lookup_ne l n k c : n ≠ k → mjoin (write n c l !! k) = mjoin (l !! k).
Proof.
  intros Hne. unfold write. case_decide as Hn.
  - by rewrite list_lookup_insert_ne.
  - destruct (decide (k < length l)%nat) as [Hk|Hk].
    + by rewrite lookup_app_l.
    + rewrite lookup_app_r; [|lia].
      rewrite (lookup_ge_None_2 l k); [|lia].
      destruct (decide (k < n)%nat) as [Hkn|Hkn].
      * rewrite lookup_app_l; [|rewrite length_replicate; lia].
        rewrite lookup_replicate_2; [done|lia].
      * rewrite lookup_ge_None_2; [done|].
        rewrite length_app, length_replicate. simpl. lia.
Qed.

Lemma get_put_eq a i c : get (put a i c) i = Some c.
Proof.
  unfold get, put. destruct (is_index i); simpl.
  - apply write_lookup_eq.
  - apply lookup_insert_eq.
Qed.

Lemma get_put_ne a i j c : i ≠ j → get (put a i c) j = get a j.
Proof.
  intros Hne. unfold get, put.
  destruct (is_index i) eqn:Hi, (is_index j) eqn:Hj; simpl; try done.
  - apply write_lookup_ne.
    unfold is_index in Hi, Hj. intros Heq. apply Hne. lia.
  - by apply lookup_insert_ne.
Qed.

Lemma get_slice a j : is_index j = true → get (slice a) j = get a j.
Proof. unfold get. by intros ->. Qed.

Lemma is_index_grid i : 0 ≤ i ≤ 8 → is_index i = true.
Proof. unfold is_index. intros ?. apply andb_true_iff. split; lia. Qed.
End Arrays.

(** ** The scan over the win lines *)

Section Scan.
Variable sq : jsarray.

(** One iteration of the loop: a completed line ends the scan with its
    mark, any other line passes on to the rest. *)
Lemma scan_hit l rest m : line_holds sq l m → scan sq (l :: rest) = Some m.
Proof.
  destruct l as [[a b] c]. intros (Ha & Hb & Hc). simpl in *.
  rewrite Ha, Hb, Hc. unfold strict_eq.
  by rewrite bool_decide_eq_true_2.
Qed.

Lemma scan_miss l rest : ¬ completed sq l → scan sq (l :: rest) = scan sq rest.
Proof.
  destruct l as [[a b] c]. intros Hn. simpl.
  destruct (get sq a) as [[|m]|] eqn:Ha; try done.
  unfold strict_eq.
  case_bool_decide as Hb; [|done].
  case_bool_decide as Hc; [|done].
  destruct Hn. exists m. by repeat split.
Qed.

Lemma scan_None ls : scan sq ls = None ↔ Forall (λ l, ¬ completed sq l) ls.
Proof.
  induction ls as [|l rest IH].
  - split; [constructor|done].
  - destruct (decide (completed sq l)) as [[m Hm]|Hn].
    + rewrite (scan_hit _ _ _ Hm). split; [done|].
      intros Hall. apply Forall_cons in Hall as [Hl _]. destruct Hl. by exists m.
    + rewrite (scan_miss _ _ Hn), IH, Forall_cons. tauto.
Qed.

Lemma scan_Some ls m :
  scan sq ls = Some m ↔
  ∃ l1 l l2, ls = l1 ++ l :: l2 ∧ Forall (λ l', ¬ completed sq l') l1
             ∧ line_holds sq l m.
Proof.
  induction ls as [|l rest IH].
  - split; [done|]. intros (l1 & l & l2 & Heq & _). by destruct l1.
  - destruct (decide (completed sq l)) as [[m' Hm']|Hn].
    + rewrite (scan_hit _ _ _ Hm'). split.
      * intros [= ->]. exists [], l, rest. split; [done|]. split; [constructor|done].
      * intros (l1 & l' & l2 & Heq & Hall & Hl').
        destruct l1 as [|l0 l1]; simplify_eq/=.
        -- destruct Hm' as [H1 _], Hl' as [H2 _]. congruence.
        -- apply Forall_cons in Hall as [Hl _]. destruct Hl. by exists m'.
    + rewrite (scan_miss _ _ Hn), IH. split.
      * intros (l1 & l' & l2 & -> & Hall & Hl').
        exists (l :: l1), l', l2. split; [done|]. split; [by constructor|done].
      * intros (l1 & l' & l2 & Heq & Hall & Hl').
        destruct l1 as [|l0 l1]; simplify_eq/=.
        -- destruct Hn. by exists m.
        -- apply Forall_cons in Hall as [_ Hall]. by exists l1, l', l2.
Qed.

(** A winner is the mark of some completed line. *)
Lemma calculateWinner_line m :
  calculateWinner sq = Some m → ∃ l, l ∈ lines ∧ line_holds sq l m.
Proof.
  intros (l1 & l & l2 & Heq & _ & Hl)%scan_Some.
  exists l. split; [|done]. rewrite Heq. set_solver.
Qed.

Lemma calculateWinner_None :
  calculateWinner sq = None ↔ ∀ l, l ∈ lines → ¬ completed sq l.
Proof. unfold calculateWinner. by rewrite scan_None, Forall_forall. Qed.

Lemma has_winner_completed :
  has_winner (calculateWinner sq) = true ↔ ∃ l, l ∈ lines ∧ completed sq l.
Proof.
  split.
  - destruct (calculateWinner sq) as [m|] eqn:Hw; [|done]. intros _.
    apply calculateWinner_line in Hw as (l & Hin & Hl). exists l. split; [done|by exists m].
  - intros (l & Hin & Hl).
    destruct (calculateWinner sq) eqn:Hw; [done|].
    rewrite calculateWinner_None in Hw. by destruct (Hw l Hin).
Qed.

(** On a 9-cell board [every(Boolean)] says that the grid is full. *)
Lemma every_Boolean_board9 :
  board9 sq → every_Boolean sq = true ↔ all_occupied sq.
Proof.
  intros (Hlen & Hsome & _). unfold every_Boolean, all_occupied.
  rewrite <- Is_true_true, forallb_True, Forall_lookup. split.
  - intros Hall i Hi. unfold get. rewrite is_index_grid by done.
    destruct (lookup_lt_is_Some_2 (elems sq) (Z.to_nat i)) as [s Hs]; [lia|].
    specialize (Hall _ _ Hs). rewrite Hs. simpl.
    destruct s as [c|]; [by apply Is_true_true|].
    rewrite Forall_lookup in Hsome. by destruct (Hsome _ _ Hs).
  - intros Hall n s Hs.
    rewrite Forall_lookup in Hsome. destruct (Hsome _ _ Hs) as [c ->].
    apply lookup_lt_Some in Hs as Hn.
    specialize (Hall (Z.of_nat n)). unfold get in Hall.
    rewrite is_index_grid, Nat2Z.id, Hs in Hall by lia.
    apply Is_true_true, Hall. lia.
Qed.
End Scan.

(** ** The outcome *)

Lemma outcome_Win sq m : outcome sq = Win m ↔ calculateWinner sq = Some m.
Proof.
  unfold outcome.
  destruct (calculateWinner sq), (every_Boolean sq); simpl;
    intuition congruence.
Qed.

Lemma outcome_Draw sq :
  outcome sq = Draw ↔ calculateWinner sq = None ∧ every_Boolean sq = true.
Proof.
  unfold outcome.
  destruct (calculateWinner sq), (every_Boolean sq); simpl;
    intuition congruence.
Qed.

Lemma outcome_InProgress sq :
  outcome sq = InProgress ↔ calculateWinner sq = None ∧ every_Boolean sq = false.
Proof.
  unfold outcome.
  destruct (calculateWinner sq), (every_Boolean sq); simpl;
    intuition congruence.
Qed.

Lemma status_outcome st :
  status st = match outcome (squares st) with
              | Win m => StatusWinner m
              | Draw => StatusDraw
              | InProgress => StatusNext (turn_mark (isXNext st))
              end.
Proof.
  unfold status, outcome, isDraw, winner.
  destruct (calculateWinner (squares st)); [done|].
  rewrite andb_true_r. by destruct (every_Boolean (squares st)).
Qed.

(** ** One click *)

Section Click.
Implicit Types (st : state) (sq : jsarray) (i j : Z).

Lemma handleClick_rejected st i :
  truthy (get (squares st) i) = true
  ∨ has_winner (calculateWinner (squares st)) = true →
  handleClick st i = st.
Proof.
  intros H. unfold handleClick.
  by rewrite (proj2 (orb_true_iff _ _) H).
Qed.

Lemma handleClick_accepted st i :
  truthy (get (squares st) i) = false →
  has_winner (calculateWinner (squares st)) = false →
  handleClick st i =
    {| squares := put (slice (squares st)) i (Mk (turn_mark (isXNext st)));
       isXNext := negb (isXNext st);
       theme := theme st; themeDialogOpen := themeDialogOpen st |}.
Proof. intros H1 H2. unfold handleClick. by rewrite H1, H2. Qed.

(** The state is kept exactly in the two cases the guard tests. *)
Lemma handleClick_fixed st i :
  handleClick st i = st ↔
  truthy (get (squares st) i) = true
  ∨ has_winner (calculateWinner (squares st)) = true.
Proof.
  split; [|apply handleClick_rejected].
  destruct (truthy (get (squares st) i)) eqn:H1; [by left|].
  destruct (has_winner (calculateWinner (squares st))) eqn:H2; [by right|].
  rewrite handleClick_accepted by done.
  intros Heq. apply (f_equal isXNext) in Heq. simpl in Heq.
  by destruct (isXNext st).
Qed.

(** A free cell of a 9-cell board holds [null]. *)
Lemma board9_free sq i :
  board9 sq → 0 ≤ i ≤ 8 → truthy (get sq i) = false →
  elems sq !! Z.to_nat i = Some (Some Null).
Proof.
  intros (Hlen & Hsome & _) Hi. unfold get. rewrite is_index_grid by done.
  destruct (lookup_lt_is_Some_2 (elems sq) (Z.to_nat i)) as [s Hs]; [lia|].
  rewrite Hs. rewrite Forall_lookup in Hsome.
  destruct (Hsome _ _ Hs) as [[|m] ->]; simpl; done.
Qed.

(** Outside the grid a 9-cell board has nothing to read. *)
Lemma board9_outside sq i : board9 sq → ¬ 0 ≤ i ≤ 8 → get sq i = None.
Proof.
  intros (Hlen & _ & Hprops) Hi. unfold get.
  destruct (is_index i) eqn:Hidx.
  - unfold is_index in Hidx. apply andb_true_iff in Hidx as [? ?].
    rewrite lookup_ge_None_2; [done|lia].
  - by rewrite Hprops.
Qed.

(** Writing a cell of the grid replaces that slot and nothing else. *)
Lemma put_slice_board9 sq i c :
  board9 sq → 0 ≤ i ≤ 8 →
  put (slice sq) i c = {| elems := <[Z.to_nat i := Some c]> (elems sq); props := ∅ |}
  ∧ board9 (put (slice sq) i c).
Proof.
  intros (Hlen & Hsome & Hprops) Hi.
  assert (put (slice sq) i c
          = {| elems := <[Z.to_nat i := Some c]> (elems sq); props := ∅ |}) as ->.
  { unfold put, write. rewrite is_index_grid by done. simpl.
    rewrite decide_True by lia. done. }
  split; [done|]. split_and!; simpl.
  - by rewrite length_insert.
  - apply Forall_insert; [done|by eexists].
  - done.
Qed.

Lemma count_mark_insert m (l : list (option cell)) (n : nat) x y :
  l !! n = Some x →
  (count_mark m (<[n := y]> l) + (if decide (x = Some (Mk m)) then 1 else 0)
   = count_mark m l + (if decide (y = Some (Mk m)) then 1 else 0))%nat.
Proof.
  revert n. induction l as [|s l IH]; intros [|n] Hn; simplify_eq/=.
  - lia.
  - specialize (IH _ Hn). lia.
Qed.
End Click.

(** ** Invariants of play *)

Section Invariants.
Implicit Types (st : state) (sq : jsarray) (i j : Z).

Lemma lines_in_grid l :
  l ∈ lines → 0 ≤ l.1.1 ≤ 8 ∧ 0 ≤ l.1.2 ≤ 8 ∧ 0 ≤ l.2 ≤ 8.
Proof.
  assert (Forall (λ l, 0 ≤ l.1.1 ≤ 8 ∧ 0 ≤ l.1.2 ≤ 8 ∧ 0 ≤ l.2 ≤ 8) lines) as H.
  { unfold lines. repeat constructor; simpl; lia. }
  rewrite Forall_forall in H. apply H.
Qed.

(** A cell of the grid that holds another mark than the one just
    written held it before the write. *)
Lemma get_put_slice_other sq i j m0 m :
  0 ≤ j ≤ 8 → m ≠ m0 →
  get (put (slice sq) i (Mk m0)) j = Some (Mk m) → get sq j = Some (Mk m).
Proof.
  intros Hj Hm Hget. destruct (decide (i = j)) as [->|Hne].
  - rewrite get_put_eq in Hget. congruence.
  - rewrite get_put_ne, get_slice in Hget; auto using is_index_grid.
Qed.

Lemma line_holds_before sq i m0 l m :
  l ∈ lines → m ≠ m0 →
  line_holds (put (slice sq) i (Mk m0)) l m → line_holds sq l m.
Proof.
  intros (Ha & Hb & Hc)%lines_in_grid Hm (H1 & H2 & H3).
  split_and!; eapply get_put_slice_other; eauto.
Qed.

(** No click, whatever its index, makes both marks win. *)
Lemma handleClick_both_win st i :
  ¬ both_win (squares st) → ¬ both_win (squares (handleClick st i)).
Proof.
  intros Hinv.
  destruct (truthy (get (squares st) i)) eqn:H1;
    [by rewrite handleClick_rejected by auto|].
  destruct (has_winner (calculateWinner (squares st))) eqn:H2;
    [by rewrite handleClick_rejected by auto|].
  rewrite handleClick_accepted by done. simpl.
  assert (calculateWinner (squares st) = None) as Hnone
    by (by destruct (calculateWinner (squares st))).
  rewrite calculateWinner_None in Hnone.
  intros (l1 & l2 & Hl1 & Hl2 & HX & HO).
  destruct (isXNext st); simpl in *.
  - apply (Hnone l2 Hl2). exists O.
    by apply (line_holds_before _ i X).
  - apply (Hnone l1 Hl1). exists X.
    by apply (line_holds_before _ i O).
Qed.

Lemma Array9_null_board9 : board9 Array9_null.
Proof. split_and!; [done| |done]. repeat constructor; by eexists. Qed.

Lemma calculateWinner_Array9_null : calculateWinner Array9_null = None.
Proof. reflexivity. Qed.

Lemma both_win_Array9_null : ¬ both_win Array9_null.
Proof.
  intros (l1 & _ & Hl1 & _ & HX & _).
  pose proof calculateWinner_Array9_null as Hnone.
  rewrite calculateWinner_None in Hnone.
  apply (Hnone l1 Hl1). by exists X.
Qed.

Lemma initial_turn_invariant e : turn_invariant (initial e).
Proof. split; [apply Array9_null_board9|done]. Qed.

Lemma restartGame_turn_invariant st : turn_invariant (restartGame st).
Proof. split; [apply Array9_null_board9|done]. Qed.

(** A click on one of the nine squares keeps the counts in step with
    the turn. *)
Lemma handleClick_turn_invariant st i :
  0 ≤ i ≤ 8 → turn_invariant st → turn_invariant (handleClick st i).
Proof.
  intros Hi [Hb Hcount].
  destruct (truthy (get (squares st) i)) eqn:H1;
    [by rewrite handleClick_rejected by auto|].
  destruct (has_winner (calculateWinner (squares st))) eqn:H2;
    [by rewrite handleClick_rejected by auto|].
  rewrite handleClick_accepted by done.
  destruct (put_slice_board9 (squares st) i (Mk (turn_mark (isXNext st))) Hb Hi)
    as [Heq Hb'].
  split; simpl; [done|]. rewrite Heq. simpl.
  pose proof (board9_free _ _ Hb Hi H1) as Hfree.
  pose proof (count_mark_insert X _ _ _ (Some (Mk (turn_mark (isXNext st)))) Hfree) as HX.
  pose proof (count_mark_insert O _ _ _ (Some (Mk (turn_mark (isXNext st)))) Hfree) as HO.
  destruct (isXNext st); simpl in *;
    repeat (case_decide; simplify_eq); lia.
Qed.

Lemma reachable_turn_invariant st : reachable st → turn_invariant st.
Proof.
  induction 1 as [e|st i _ IH Hi|st _ _|st t _ IH|st b _ IH].
  - apply initial_turn_invariant.
  - by apply handleClick_turn_invariant.
  - apply restartGame_turn_invariant.
  - exact IH.
  - exact IH.
Qed.

Lemma reachable_not_both_win st : reachable st → ¬ both_win (squares st).
Proof.
  induction 1 as [e|st i _ IH Hi|st _ _|st t _ IH|st b _ IH].
  - apply both_win_Array9_null.
  - by apply handleClick_both_win.
  - apply both_win_Array9_null.
  - exact IH.
  - exact IH.
Qed.

(** Every legal move is one of the clicks of [reachable], and it is
    accepted. *)
Lemma legal_accepted st i :
  legal st i →
  truthy (get (squares st) i) = false
  ∧ has_winner (calculateWinner (squares st)) = false.
Proof.
  intros (_ & Hfree & Hout). split; [done|].
  apply outcome_InProgress in Hout as [-> _]. done.
Qed.
End Invariants.

(** ** The scenarios of the specification *)

Example top_row_game_outcome : outcome (squares top_row_game) = Win X.
Proof. reflexivity. Qed.

Example drawn_game_outcome : outcome (squares drawn_game) = Draw.
Proof. reflexivity. Qed.

Example same_cell_twice :
  play (initial env0) [0; 0] = play (initial env0) [0].
Proof. reflexivity. Qed.

Example two_rows_winner :
  calculateWinner two_rows = Some X ∧ calculateWinner two_rows_swapped = Some O.
Proof. split; reflexivity. Qed.

Lemma reachable_play st js :
  reachable st → Forall (λ i, 0 ≤ i ≤ 8) js → reachable (play st js).
Proof.
  intros Hst Hjs. revert st Hst.
  induction Hjs as [|i js Hi _ IH]; intros st Hst; [done|].
  apply IH. by apply reach_click.
Qed.

Lemma legal_reachable st i :
  reachable st → legal st i → reachable (handleClick st i).
Proof. intros Hst (Hi & _). by apply reach_click. Qed.

(** When not both marks have a line, the outcome is a win for [m] exactly
    when [m] has one. *)
Lemma outcome_Win_line sq m :
  ¬ both_win sq →
  outcome sq = Win m ↔ ∃ l, l ∈ lines ∧ line_holds sq l m.
Proof.
  intros Hone. rewrite outcome_Win. split; [apply calculateWinner_line|].
  intros (l & Hin & Hl).
  destruct (calculateWinner sq) as [m'|] eqn:Hw.
  - destruct (decide (m' = m)) as [->|Hne]; [done|].
    apply calculateWinner_line in Hw as (l' & Hin' & Hl').
    destruct Hone. destruct m, m'; try done.
    + by exists l, l'.
    + by exists l', l.
  - rewrite calculateWinner_None in Hw. destruct (Hw l Hin). by exists m.
Qed.

Lemma includes_elem_of (l : list string) (s : string) :
  includes l s = true ↔ s ∈ l.
Proof.
  unfold includes. induction l as [|t l IH]; simpl.
  - split; [done|]. by intros ?%elem_of_nil.
  - rewrite orb_true_iff, IH, elem_of_cons, String.eqb_eq. done.
Qed.

Lemma board9_concrete (c0 c1 c2 c3 c4 c5 c6 c7 c8 : cell) :
  board9 {| elems := [Some c0; Some c1; Some c2; Some c3; Some c4;
                      Some c5; Some c6; Some c7; Some c8];
            props := ∅ |}.
Proof. split_and!; [reflexivity| |reflexivity]. repeat constructor; by eexists. Qed.

Lemma turn_mark_negb b : turn_mark (negb b) = other (turn_mark b).
Proof. by destruct b. Qed.

(** ** The properties of the specification *)

(** C1 (as the code has it). [handleClick] leaves the state exactly as it
    was -- same board, same turn -- whenever the clicked cell is occupied
    or a line is completed, and so on a 9-cell board for every index 0..8
    once the game is no longer in progress.  The index is not checked
    against the range 0..8. *)
Theorem handleClick_noop_when_rejected (st : state) (i : Z) :
  truthy (get (squares st) i) = true
  ∨ (∃ m, outcome (squares st) = Win m)
  ∨ (board9 (squares st) ∧ 0 ≤ i ≤ 8 ∧ outcome (squares st) ≠ InProgress) →
  handleClick st i = st
  ∧ squares (handleClick st i) = squares st
  ∧ isXNext (handleClick st i) = isXNext st.
Proof.
  intros H.
  assert (handleClick st i = st) as ->; [|done].
  apply handleClick_rejected.
  destruct H as [Hocc|[[m Hwin]|(Hb & Hi & Hout)]].
  - by left.
  - right. apply outcome_Win in Hwin. by rewrite Hwin.
  - destruct (outcome (squares st)) as [|m|] eqn:Ho; [done| |].
    + right. apply outcome_Win in Ho. by rewrite Ho.
    + left. apply outcome_Draw in Ho as [_ Hfull].
      by apply (every_Boolean_board9 _ Hb).
Qed.

Lemma handleClick_noop_when_rejected_witness :
  (∃ m, outcome (squares top_row_game) = Win m)
  ∧ truthy (get (squares top_row_game) 7) = false
  ∧ handleClick top_row_game 7 = top_row_game.
Proof.
  assert (∃ m, outcome (squares top_row_game) = Win m) as Hwin
    by (exists X; reflexivity).
  split; [exact Hwin|]. split; [reflexivity|].
  apply (handleClick_noop_when_rejected top_row_game 7). right. left. exact Hwin.
Defined.

(** C1, the case that fails: on the empty board a click with index 9,
    outside 0..8, is not rejected; it appends an ["X"] as tenth slot and
    passes the turn to ["O"]. *)
Lemma handleClick_out_of_range_not_rejected :
  ¬ 0 ≤ 9 ≤ 8
  ∧ handleClick (initial env0) 9 ≠ initial env0
  ∧ squares (handleClick (initial env0) 9)
    = {| elems := replicate 9 (Some Null) ++ [Some (Mk X)]; props := ∅ |}
  ∧ isXNext (initial env0) = true
  ∧ isXNext (handleClick (initial env0) 9) = false.
Proof.
  split; [lia|]. split; [|by vm_compute].
  intros Heq. apply (f_equal isXNext) in Heq. vm_compute in Heq. discriminate Heq.
Qed.

(** The same outside the array indices: index -1 stores a property. *)
Example handleClick_negative_index :
  squares (handleClick (initial env0) (-1))
  = {| elems := replicate 9 (Some Null); props := {[ -1 := Mk X ]} |}
  ∧ isXNext (handleClick (initial env0) (-1)) = false.
Proof. by vm_compute. Qed.

(** C2. A legal move on a 9-cell board -- an index 0..8 whose cell is
    free, while the game is in progress -- yields the same board except
    that the cell at the index holds the mark of the turn, and gives the
    turn to the other mark; hence the next click that changes the state
    places the other mark and hands the turn back. *)
Theorem handleClick_legal_move (st : state) (i : Z) :
  board9 (squares st) → legal st i →
  let st' := handleClick st i in
  squares st' = {| elems := <[Z.to_nat i := Some (Mk (turn_mark (isXNext st)))]>
                              (elems (squares st));
                   props := ∅ |}
  ∧ get (squares st') i = Some (Mk (turn_mark (isXNext st)))
  ∧ (∀ j, j ≠ i → get (squares st') j = get (squares st) j)
  ∧ board9 (squares st')
  ∧ isXNext st' = negb (isXNext st)
  ∧ turn_mark (isXNext st') = other (turn_mark (isXNext st))
  ∧ (∀ j, handleClick st' j ≠ st' →
          get (squares (handleClick st' j)) j
          = Some (Mk (other (turn_mark (isXNext st))))
          ∧ isXNext (handleClick st' j) = isXNext st).
Proof.
  intros Hb Hlegal st'.
  destruct (legal_accepted _ _ Hlegal) as [Hfree Hnow].
  destruct Hlegal as (Hi & _ & _).
  assert (st' = {| squares := put (slice (squares st)) i (Mk (turn_mark (isXNext st)));
                   isXNext := negb (isXNext st);
                   theme := theme st; themeDialogOpen := themeDialogOpen st |}) as Hst'
    by (by apply handleClick_accepted).
  destruct (put_slice_board9 (squares st) i (Mk (turn_mark (isXNext st))) Hb Hi)
    as [Heq Hb'].
  rewrite Hst'. simpl. split_and!.
  - exact Heq.
  - apply get_put_eq.
  - intros j Hj. destruct (decide (0 ≤ j ≤ 8)) as [Hin|Hout].
    + rewrite get_put_ne, get_slice; auto using is_index_grid.
    + by rewrite !board9_outside.
  - exact Hb'.
  - done.
  - apply turn_mark_negb.
  - intros j Hchg. rewrite <- Hst' in *.
    assert (truthy (get (squares st') j) = false
            ∧ has_winner (calculateWinner (squares st')) = false) as [H1 H2].
    { destruct (truthy (get (squares st') j)) eqn:H1;
        [destruct Hchg; apply handleClick_rejected; by left|].
      destruct (has_winner (calculateWinner (squares st'))) eqn:H2;
        [destruct Hchg; apply handleClick_rejected; by right|done]. }
    rewrite handleClick_accepted by done. simpl.
    rewrite get_put_eq, Hst'. simpl.
    by rewrite turn_mark_negb, negb_involutive.
Qed.

Lemma handleClick_legal_move_witness :
  board9 (squares (initial env0)) ∧ legal (initial env0) 4
  ∧ get (squares (handleClick (initial env0) 4)) 4 = Some (Mk X)
  ∧ isXNext (handleClick (initial env0) 4) = negb (isXNext (initial env0)).
Proof.
  assert (board9 (squares (initial env0))) as Hb by apply board9_concrete.
  assert (legal (initial env0) 4) as Hl.
  { split; [lia|]. split; reflexivity. }
  split; [exact Hb|]. split; [exact Hl|].
  pose proof (handleClick_legal_move (initial env0) 4 Hb Hl) as (_ & H2 & _ & _ & H5 & _).
  split; [exact H2|exact H5].
Defined.

(** C3. On a 9-cell board [outcome] is a win exactly when one of the
    eight lines (three rows, three columns, two diagonals) has its three
    cells holding the same mark, and the mark it reports fills such a line
    (it is the only such mark unless both marks have a line); it is a draw
    exactly when no line is completed and all nine cells are occupied; and
    it is in progress otherwise. *)
Theorem outcome_win_draw_in_progress (sq : jsarray) :
  board9 sq →
  lines = [ (0, 1, 2); (3, 4, 5); (6, 7, 8);
            (0, 3, 6); (1, 4, 7); (2, 5, 8);
            (0, 4, 8); (2, 4, 6) ]
  ∧ ((∃ m, outcome sq = Win m) ↔ ∃ l, l ∈ lines ∧ completed sq l)
  ∧ (∀ m, outcome sq = Win m → ∃ l, l ∈ lines ∧ line_holds sq l m)
  ∧ (¬ both_win sq →
     ∀ m, outcome sq = Win m ↔ ∃ l, l ∈ lines ∧ line_holds sq l m)
  ∧ (outcome sq = Draw ↔
     (∀ l, l ∈ lines → ¬ completed sq l) ∧ all_occupied sq)
  ∧ (outcome sq = InProgress ↔
     (∀ l, l ∈ lines → ¬ completed sq l) ∧ ¬ all_occupied sq).
Proof.
  intros Hb. split; [reflexivity|]. split_and!.
  - rewrite <- has_winner_completed. split.
    + intros [m Hm]. apply outcome_Win in Hm. by rewrite Hm.
    + destruct (calculateWinner sq) as [m|] eqn:Hw; [|done].
      intros _. exists m. by apply outcome_Win.
  - intros m Hm. by apply calculateWinner_line, outcome_Win.
  - intros Hone m. by apply outcome_Win_line.
  - by rewrite outcome_Draw, calculateWinner_None, every_Boolean_board9.
  - rewrite outcome_InProgress, calculateWinner_None.
    rewrite <- (every_Boolean_board9 sq Hb).
    by rewrite not_true_iff_false.
Qed.

Lemma outcome_win_draw_in_progress_witness :
  board9 (squares top_row_game)
  ∧ ((∃ m, outcome (squares top_row_game) = Win m) ↔
     ∃ l, l ∈ lines ∧ completed (squares top_row_game) l).
Proof.
  assert (board9 (squares top_row_game)) as Hb.
  { vm_compute. split_and!; [reflexivity| |reflexivity].
    repeat constructor; by eexists. }
  split; [exact Hb|].
  exact (proj1 (proj2 (outcome_win_draw_in_progress _ Hb))).
Defined.

(** C4 (as the code has it). A won game is terminal for every index, and
    a drawn game on a 9-cell board is terminal for every index 0..8:
    [handleClick] leaves the state as it was.  [restartGame] leads back
    to a board in progress. *)
Theorem handleClick_terminal (st : state) (i : Z) :
  (∃ m, outcome (squares st) = Win m)
  ∨ (board9 (squares st) ∧ outcome (squares st) = Draw ∧ 0 ≤ i ≤ 8) →
  handleClick st i = st
  ∧ outcome (squares (restartGame st)) = InProgress.
Proof.
  intros H. split; [|reflexivity].
  apply handleClick_rejected.
  destruct H as [[m Hwin]|(Hb & Hdraw & Hi)].
  - right. apply outcome_Win in Hwin. by rewrite Hwin.
  - left. apply outcome_Draw in Hdraw as [_ Hfull].
    by apply (every_Boolean_board9 _ Hb).
Qed.

Lemma handleClick_terminal_witness :
  board9 (squares drawn_game) ∧ outcome (squares drawn_game) = Draw
  ∧ handleClick drawn_game 4 = drawn_game.
Proof.
  assert (board9 (squares drawn_game)) as Hb.
  { vm_compute. split_and!; [reflexivity| |reflexivity].
    repeat constructor; by eexists. }
  assert (outcome (squares drawn_game) = Draw) as Hd by reflexivity.
  split; [exact Hb|]. split; [exact Hd|].
  apply (handleClick_terminal drawn_game 4). right.
  split; [exact Hb|]. split; [exact Hd|lia].
Defined.

(** C4, the case that fails: after the drawn game of nine moves a click
    with index 9 is accepted; it appends an ["O"] as tenth slot and gives
    the turn back to ["X"]. *)
Lemma draw_accepts_out_of_range_click :
  outcome (squares drawn_game) = Draw
  ∧ handleClick drawn_game 9 ≠ drawn_game
  ∧ elems (squares (handleClick drawn_game 9))
    = elems (squares drawn_game) ++ [Some (Mk O)]
  ∧ isXNext drawn_game = false
  ∧ isXNext (handleClick drawn_game 9) = true.
Proof.
  split; [reflexivity|]. split; [|by vm_compute].
  intros Heq. apply (f_equal isXNext) in Heq. vm_compute in Heq. discriminate Heq.
Qed.

(** C5. On every board reached from the empty board by clicks on the
    nine squares (every legal move is one) and restarts, the two marks
    never both have a completed line; [outcome] reports a win for a mark
    exactly when that mark has a completed line, and then the other mark
    has none. *)
Theorem reachable_single_winner (st : state) :
  reachable st →
  ¬ both_win (squares st)
  ∧ (∀ m, outcome (squares st) = Win m ↔
          ∃ l, l ∈ lines ∧ line_holds (squares st) l m)
  ∧ (∀ m l, outcome (squares st) = Win m → l ∈ lines →
            ¬ line_holds (squares st) l (other m)).
Proof.
  intros Hone%reachable_not_both_win. split_and!.
  - exact Hone.
  - intros m. by apply outcome_Win_line.
  - intros m l Hwin Hin Hl.
    apply outcome_Win_line in Hwin as (l' & Hin' & Hl'); [|done].
    destruct Hone. destruct m; simpl in Hl.
    + by exists l', l.
    + by exists l, l'.
Qed.

Lemma reachable_single_winner_witness :
  reachable top_row_game ∧ ¬ both_win (squares top_row_game).
Proof.
  assert (reachable top_row_game) as Hr.
  { apply reachable_play; [apply reach_initial|].
    repeat constructor; lia. }
  split; [exact Hr|].
  exact (proj1 (reachable_single_winner top_row_game Hr)).
Defined.

(** C6. In every state reached from the first render (["X"] moves first)
    by clicks on the nine squares, restarts and theme changes, the number
    of ["X"] cells minus the number of ["O"] cells is 0 or 1: it is 0 when
    ["X"] is next and 1 when ["O"] is next.  Each legal move switches
    between the two values and a restart gives 0. *)
Theorem reachable_mark_counts (st : state) :
  reachable st →
  (mark_difference (squares st) = 0 ∨ mark_difference (squares st) = 1)
  ∧ mark_difference (squares st) = (if isXNext st then 0 else 1)
  ∧ (∀ i, legal st i →
          mark_difference (squares (handleClick st i))
          = 1 - mark_difference (squares st))
  ∧ mark_difference (squares (restartGame st)) = 0.
Proof.
  intros Hr.
  pose proof (reachable_turn_invariant _ Hr) as [Hb Hcount].
  fold (mark_difference (squares st)) in Hcount.
  split_and!.
  - destruct (isXNext st); auto.
  - exact Hcount.
  - intros i Hlegal.
    destruct (reachable_turn_invariant _ (legal_reachable _ _ Hr Hlegal)) as [_ Hc'].
    fold (mark_difference (squares (handleClick st i))) in Hc'.
    destruct (legal_accepted _ _ Hlegal) as [Hfree Hnow].
    rewrite Hc', Hcount, handleClick_accepted by done. simpl.
    by destruct (isXNext st).
  - reflexivity.
Qed.

Lemma reachable_mark_counts_witness :
  reachable drawn_game
  ∧ mark_difference (squares drawn_game) = 1.
Proof.
  assert (reachable drawn_game) as Hr.
  { apply reachable_play; [apply reach_initial|].
    repeat constructor; lia. }
  split; [exact Hr|].
  pose proof (reachable_mark_counts drawn_game Hr) as (_ & H & _).
  exact H.
Defined.

(** C7. Whatever the state, [restartGame] yields the board
    [Array(9).fill(null)] -- nine cells, all [null] -- with ["X"] to move,
    which is also the state of the first render. *)
Theorem restartGame_initial_board (st : state) (e : env) :
  squares (restartGame st) = Array9_null
  ∧ isXNext (restartGame st) = true
  ∧ squares (initial e) = Array9_null
  ∧ isXNext (initial e) = true
  ∧ turn_mark true = X
  ∧ elems Array9_null = [Some Null; Some Null; Some Null;
                         Some Null; Some Null; Some Null;
                         Some Null; Some Null; Some Null]
  ∧ props Array9_null = ∅.
Proof. by split_and!. Qed.

(** C8. [getInitialTheme] returns the stored value when it is one of the
    six names of [THEMES]; when nothing is stored or the stored value is
    not one of them, it returns ["dark"] if the system reports a dark
    colour scheme and ["light"] otherwise (also when the media query is
    missing or throws).  The result is always one of [THEMES]. *)
Theorem getInitialTheme_selection (e : env) :
  THEMES = ["light"; "dark"; "ocean"; "forest"; "sunset"; "lavender"]%string
  ∧ (∀ s, stored_theme e = Some s → s ∈ THEMES → getInitialTheme e = s)
  ∧ ((∀ s, stored_theme e = Some s → s ∉ THEMES) →
     (prefers_dark e = MediaMatches true → getInitialTheme e = "dark"%string)
     ∧ (prefers_dark e ≠ MediaMatches true → getInitialTheme e = "light"%string))
  ∧ getInitialTheme e ∈ THEMES.
Proof.
  assert (∀ m, (m = MediaMatches true → system_theme m = "dark"%string)
               ∧ (m ≠ MediaMatches true → system_theme m = "light"%string)
               ∧ system_theme m ∈ THEMES) as Hsys.
  { intros [| |[]]; split_and!; try done; by apply includes_elem_of. }
  split; [reflexivity|]. unfold getInitialTheme.
  destruct (stored_theme e) as [stored|]; split_and!.
  - intros s [= ->] Hin.
    apply includes_elem_of in Hin as Hinc. rewrite Hinc.
    destruct (String.eqb_spec s "") as [->|_]; [|done].
    by apply includes_elem_of in Hin.
  - intros Hnot. specialize (Hnot stored eq_refl).
    rewrite <- includes_elem_of, not_true_iff_false in Hnot.
    rewrite Hnot, andb_false_r. split; apply Hsys.
  - destruct (negb (String.eqb stored "") && includes THEMES stored) eqn:Hok.
    + apply andb_true_iff in Hok as [_ Hinc]. by apply includes_elem_of.
    + apply Hsys.
  - done.
  - intros _. split; apply Hsys.
  - apply Hsys.
Qed.

Lemma getInitialTheme_selection_witness :
  getInitialTheme {| stored_theme := Some "ocean"%string;
                     prefers_dark := MediaMatches true |} = "ocean"%string
  ∧ getInitialTheme {| stored_theme := Some "neon"%string;
                       prefers_dark := MediaMatches true |} = "dark"%string
  ∧ getInitialTheme {| stored_theme := None;
                       prefers_dark := MediaThrows |} = "light"%string.
Proof.
  split_and!.
  - apply (getInitialTheme_selection (Env (Some "ocean"%string) (MediaMatches true)));
      [reflexivity|]. by apply includes_elem_of.
  - apply (getInitialTheme_selection (Env (Some "neon"%string) (MediaMatches true)));
      [|reflexivity].
    intros s [= <-] Hin%includes_elem_of. discriminate Hin.
  - apply (getInitialTheme_selection (Env None MediaThrows)); [|done].
    intros s [=].
Defined.

(** C9. [calculateWinner] checks the lines in the fixed order rows
    [0,1,2], [3,4,5], [6,7,8], columns [0,3,6], [1,4,7], [2,5,8],
    diagonals [0,4,8], [2,4,6], on every board (also one where both marks
    have completed lines): it returns [m] exactly when [m] fills the first
    completed line of that order, and [null] exactly when no line is
    completed. *)
Theorem calculateWinner_first_completed_line (sq : jsarray) :
  lines = [ (0, 1, 2); (3, 4, 5); (6, 7, 8);
            (0, 3, 6); (1, 4, 7); (2, 5, 8);
            (0, 4, 8); (2, 4, 6) ]
  ∧ (∀ m, calculateWinner sq = Some m ↔
          ∃ l1 l l2, lines = l1 ++ l :: l2
                     ∧ Forall (λ l', ¬ completed sq l') l1
                     ∧ line_holds sq l m)
  ∧ (calculateWinner sq = None ↔ ∀ l, l ∈ lines → ¬ completed sq l).
Proof.
  split; [reflexivity|]. split.
  - intros m. apply scan_Some.
  - apply calculateWinner_None.
Qed.

(** C10. The winner, the draw flag and the outcome are functions of the
    squares alone: two states with equal squares agree on them, whatever
    their turn flags, themes and dialog flags. *)
Theorem outcome_depends_on_squares (s1 s2 : state) :
  squares s1 = squares s2 →
  winner s1 = winner s2
  ∧ isDraw s1 = isDraw s2
  ∧ outcome (squares s1) = outcome (squares s2).
Proof. unfold winner, isDraw, winner. by intros ->. Qed.

Lemma outcome_depends_on_squares_witness :
  let s1 := drawn_game in
  let s2 := {| squares := squares drawn_game; isXNext := true;
               theme := "forest"; themeDialogOpen := true |} in
  isXNext s1 ≠ isXNext s2 ∧ theme s1 ≠ theme s2
  ∧ winner s1 = winner s2 ∧ isDraw s1 = isDraw s2
  ∧ outcome (squares s1) = outcome (squares s2).
Proof.
  intros s1 s2.
  split; [vm_compute; discriminate|]. split; [vm_compute; discriminate|].
  apply (outcome_depends_on_squares s1 s2). reflexivity.
Defined.

(** ** The rendered board and theme dialog *)

Lemma picture_Square {A B : Type} (v w : value) (f : A) (g : B) :
  picture (Square v f) = picture (Square w g) ↔ mark_of v = mark_of w.
Proof.
  destruct v as [[|[]]|], w as [[|[]]|]; vm_compute; split; congruence.
Qed.

Lemma grid_cases (i : Z) :
  0 ≤ i ≤ 8 →
  i = 0 ∨ i = 1 ∨ i = 2 ∨ i = 3 ∨ i = 4 ∨ i = 5 ∨ i = 6 ∨ i = 7 ∨ i = 8.
Proof. lia. Qed.

(** X1. [Board] renders three rows of three squares; the square in row
    [r], column [c] shows cell [3r + c] and passes [3r + c] to the click
    handler, so the nine squares forward the indices 0..8, each once and in
    order. *)
Theorem Board_grid {A : Type} (sq : jsarray) (onClick : Z → A) :
  length (Board sq onClick) = 3%nat
  ∧ (∀ row, row ∈ Board sq onClick → length row = 3%nat)
  ∧ (∀ r c : nat, (r < 3)%nat → (c < 3)%nat →
       Board sq onClick !! r ≫= (λ row, row !! c)
       = Some (Square (get sq (Z.of_nat (3 * r + c)))
                      (onClick (Z.of_nat (3 * r + c)))))
  ∧ sq_onClick <$> concat (Board sq onClick)
    = onClick <$> [0; 1; 2; 3; 4; 5; 6; 7; 8].
Proof.
  split_and!.
  - reflexivity.
  - intros row Hrow. unfold Board in Hrow.
    apply list_elem_of_fmap in Hrow as (r & -> & _). reflexivity.
  - intros r c Hr Hc.
    destruct r as [|[|[|r]]]; [| | |lia];
      destruct c as [|[|[|c]]]; try lia; reflexivity.
  - reflexivity.
Qed.

(** X2. What the board shows is a picture of the marks on the cells 0..8
    and of nothing else: two arrays give the same nine classes and texts
    exactly when they hold the same marks on these cells ([null], an empty
    slot and a missing slot all show as an empty square; slots from 9 on
    and other properties are not shown). *)
Theorem Board_picture_marks {A B : Type} (sq1 sq2 : jsarray)
    (f : Z → A) (g : Z → B) :
  picture <$> concat (Board sq1 f) = picture <$> concat (Board sq2 g)
  ↔ ∀ i, 0 ≤ i ≤ 8 → mark_of (get sq1 i) = mark_of (get sq2 i).
Proof.
  split.
  - intros Heq i Hi.
    apply (picture_Square _ _ (f i) (g i)).
    apply (inj Some).
    destruct (grid_cases i Hi) as [->|[->|[->|[->|[->|[->|[->|[->| ->]]]]]]]].
    + exact (f_equal (λ l, l !! 0%nat) Heq).
    + exact (f_equal (λ l, l !! 1%nat) Heq).
    + exact (f_equal (λ l, l !! 2%nat) Heq).
    + exact (f_equal (λ l, l !! 3%nat) Heq).
    + exact (f_equal (λ l, l !! 4%nat) Heq).
    + exact (f_equal (λ l, l !! 5%nat) Heq).
    + exact (f_equal (λ l, l !! 6%nat) Heq).
    + exact (f_equal (λ l, l !! 7%nat) Heq).
    + exact (f_equal (λ l, l !! 8%nat) Heq).
  - intros Hmarks.
    change (picture <$> concat (Board sq1 f))
      with ((λ i, picture (Square (get sq1 i) (f i))) <$> [0; 1; 2; 3; 4; 5; 6; 7; 8]).
    change (picture <$> concat (Board sq2 g))
      with ((λ i, picture (Square (get sq2 i) (g i))) <$> [0; 1; 2; 3; 4; 5; 6; 7; 8]).
    apply list_fmap_ext. intros k i Hk.
    apply picture_Square, Hmarks.
    apply list_elem_of_lookup_2 in Hk.
    repeat (apply elem_of_cons in Hk as [->|Hk]; [lia|]).
    by apply elem_of_nil in Hk.
Qed.

Lemma THEMES_cases (t : string) :
  t ∈ THEMES →
  t = "light"%string ∨ t = "dark"%string ∨ t = "ocean"%string
  ∨ t = "forest"%string ∨ t = "sunset"%string ∨ t = "lavender"%string.
Proof.
  unfold THEMES. intros Hin.
  repeat (apply elem_of_cons in Hin as [->|Hin]; [tauto|]).
  by apply elem_of_nil in Hin.
Qed.

Lemma is_active_key {A : Type} (current : string) (select : string → A) b :
  b ∈ theme_options current select →
  is_active b = true ↔ tb_key b = current.
Proof.
  unfold theme_options. intros (t & -> & _)%list_elem_of_fmap.
  unfold is_active. simpl.
  destruct (String.eqb_spec t current) as [->|Hne]; simpl.
  - done.
  - split; [discriminate|done].
Qed.

(** X3. The theme dialog shows one option per name of [THEMES], in that
    order; each has a label (the name capitalised), previews its own theme
    and selects it when clicked.  An option is marked active exactly when
    it is the current theme: so exactly one option is active when the
    current theme is one of [THEMES], and none otherwise. *)
Theorem theme_options_active {A : Type} (current : string) (select : string → A) :
  tb_key <$> theme_options current select = THEMES
  ∧ (∀ b, b ∈ theme_options current select →
          (is_active b = true ↔ tb_key b = current)
          ∧ tb_preview b = tb_key b
          ∧ tb_onClick b = select (tb_key b)
          ∧ ∃ l, tb_label b = Some l ∧ toLowerCase l = tb_key b)
  ∧ (current ∈ THEMES →
     tb_key <$> List.filter is_active (theme_options current select) = [current])
  ∧ (current ∉ THEMES →
     List.filter is_active (theme_options current select) = []).
Proof.
  split_and!.
  - reflexivity.
  - intros b Hb. split; [by apply (is_active_key current select)|].
    unfold theme_options in Hb. apply list_elem_of_fmap in Hb as (t & -> & Ht).
    simpl. split_and!; try done.
    destruct (THEMES_cases t Ht) as [->|[->|[->|[->|[->| ->]]]]];
      eexists; split; reflexivity.
  - intros Hin.
    destruct (THEMES_cases current Hin) as [->|[->|[->|[->|[->| ->]]]]];
      reflexivity.
  - intros Hnot.
    assert (Forall (λ b : theme_button A, is_active b = false)
                   (theme_options current select)) as Hall.
    { apply Forall_forall. intros b Hb.
      apply not_true_is_false. intros Hact.
      apply (is_active_key current select b Hb) in Hact.
      unfold theme_options in Hb. apply list_elem_of_fmap in Hb as (t & -> & Ht).
      simpl in Hact. by subst. }
    induction Hall as [|b l Hb _ IH]; [done|]. simpl. by rewrite Hb.
Qed.

(** ** Further properties of play *)

Lemma handleClick_winner_is_mover st i m :
  calculateWinner (squares st) = None →
  calculateWinner (squares (handleClick st i)) = Some m →
  m = turn_mark (isXNext st).
Proof.
  intros Hnone Hwin.
  destruct (truthy (get (squares st) i)) eqn:H1.
  { rewrite handleClick_rejected in Hwin by auto. congruence. }
  rewrite handleClick_accepted in Hwin by (by rewrite ?Hnone).
  simpl in Hwin. apply calculateWinner_line in Hwin as (l & Hin & Hl).
  destruct (decide (m = turn_mark (isXNext st))) as [|Hne]; [done|].
  apply line_holds_before in Hl; [|done..].
  rewrite calculateWinner_None in Hnone. destruct (Hnone l Hin). by exists m.
Qed.

Lemma handleClick_keeps_mark st i j m :
  is_index j = true → get (squares st) j = Some (Mk m) →
  get (squares (handleClick st i)) j = Some (Mk m).
Proof.
  intros Hj Hget.
  destruct (truthy (get (squares st) i)) eqn:H1;
    [by rewrite handleClick_rejected by auto|].
  destruct (has_winner (calculateWinner (squares st))) eqn:H2;
    [by rewrite handleClick_rejected by auto|].
  rewrite handleClick_accepted by done. simpl.
  rewrite get_put_ne, get_slice; [done..|].
  intros ->. by rewrite Hget in H1.
Qed.

(** X4. Clicking the same square twice in a row does what clicking it
    once does, for every index: the second click is ignored. *)
Theorem handleClick_twice (st : state) (i : Z) :
  handleClick (handleClick st i) i = handleClick st i.
Proof.
  destruct (truthy (get (squares st) i)) eqn:H1.
  { assert (handleClick st i = st) as Hsame by (apply handleClick_rejected; auto).
    by rewrite !Hsame. }
  destruct (has_winner (calculateWinner (squares st))) eqn:H2.
  { assert (handleClick st i = st) as Hsame by (apply handleClick_rejected; auto).
    by rewrite !Hsame. }
  apply handleClick_rejected. left.
  rewrite handleClick_accepted by done. simpl.
  by rewrite get_put_eq.
Qed.

(** X5. A mark placed on an array index is never removed or replaced by
    later clicks, whatever their indices. *)
Theorem play_keeps_marks (st : state) (js : list Z) (j : Z) (m : mark) :
  is_index j = true → get (squares st) j = Some (Mk m) →
  get (squares (play st js)) j = Some (Mk m).
Proof.
  intros Hj. revert st. induction js as [|i js IH]; intros st Hget; [done|].
  apply IH. by apply handleClick_keeps_mark.
Qed.

Lemma play_keeps_marks_witness :
  get (squares (play (initial env0) [4])) 4 = Some (Mk X)
  ∧ get (squares (play (play (initial env0) [4]) [4; 0; 9; 8])) 4 = Some (Mk X).
Proof.
  assert (get (squares (play (initial env0) [4])) 4 = Some (Mk X)) as H
    by (vm_compute; reflexivity).
  split; [exact H|].
  exact (play_keeps_marks (play (initial env0) [4]) [4; 0; 9; 8] 4 X eq_refl H).
Defined.

(** A key that is not an array index does not enjoy this: the property
    stored by a click on -1 is dropped by the [slice] of the next accepted
    click. *)
Example property_mark_lost :
  get (squares (play (initial env0) [-1])) (-1) = Some (Mk X)
  ∧ get (squares (play (initial env0) [-1; 0])) (-1) = None.
Proof. by vm_compute. Qed.

(** X6. In every reachable state a winner is the mark that moved last:
    the turn flag points at the other mark. *)
Theorem reachable_winner_moved_last (st : state) (m : mark) :
  reachable st → calculateWinner (squares st) = Some m →
  turn_mark (isXNext st) = other m.
Proof.
  intros Hr. revert m.
  induction Hr as [e|st i _ IH Hi|st _ _|st t _ IH|st b _ IH]; intros m Hwin;
    try done; [|by apply IH..].
  destruct (calculateWinner (squares st)) as [m'|] eqn:Hw.
  - rewrite handleClick_rejected in Hwin |- * by (right; by rewrite Hw).
    apply IH. congruence.
  - pose proof (handleClick_winner_is_mover st i m Hw Hwin) as ->.
    destruct (truthy (get (squares st) i)) eqn:H1.
    { rewrite handleClick_rejected in Hwin by auto. congruence. }
    rewrite handleClick_accepted by (by rewrite ?Hw). simpl.
    apply turn_mark_negb.
Qed.

Lemma reachable_winner_moved_last_witness :
  reachable top_row_game
  ∧ calculateWinner (squares top_row_game) = Some X
  ∧ turn_mark (isXNext top_row_game) = O.
Proof.
  assert (reachable top_row_game) as Hr.
  { apply reachable_play; [apply reach_initial|]. repeat constructor; lia. }
  assert (calculateWinner (squares top_row_game) = Some X) as Hw
    by (vm_compute; reflexivity).
  split; [exact Hr|]. split; [exact Hw|].
  exact (reachable_winner_moved_last top_row_game X Hr Hw).
Defined.

(** X7. While the status line reads "Next player: m", a click on any
    free cell places exactly [m] there, and the status then reads
    "Winner: m", "Draw!" or "Next player:" the other mark -- never a win
    for the other mark. *)
Theorem status_next_move (st : state) (i : Z) (m : mark) :
  status st = StatusNext m → truthy (get (squares st) i) = false →
  get (squares (handleClick st i)) i = Some (Mk m)
  ∧ (status (handleClick st i) = StatusWinner m
     ∨ status (handleClick st i) = StatusDraw
     ∨ status (handleClick st i) = StatusNext (other m)).
Proof.
  intros Hstatus Hfree. unfold status, winner in Hstatus.
  destruct (calculateWinner (squares st)) eqn:Hw; [done|].
  destruct (isDraw st); [done|]. injection Hstatus as <-.
  split.
  - rewrite handleClick_accepted by (by rewrite ?Hw). simpl. apply get_put_eq.
  - unfold status, winner.
    destruct (calculateWinner (squares (handleClick st i))) as [w|] eqn:Hw'.
    + left. f_equal. by apply (handleClick_winner_is_mover st i).
    + destruct (isDraw (handleClick st i)); [by right; left|].
      right; right. rewrite handleClick_accepted by (by rewrite ?Hw). simpl.
      by rewrite turn_mark_negb.
Qed.

Lemma status_next_move_witness :
  status (initial env0) = StatusNext X
  ∧ get (squares (handleClick (initial env0) 4)) 4 = Some (Mk X).
Proof.
  assert (status (initial env0) = StatusNext X) as Hs by (vm_compute; reflexivity).
  split; [exact Hs|].
  exact (proj1 (status_next_move (initial env0) 4 X Hs eq_refl)).
Defined.

Lemma count_marks_le (l : list (option cell)) :
  (count_mark X l + count_mark O l ≤ length l)%nat.
Proof.
  induction l as [|s l IH]; simpl; [lia|].
  repeat case_decide; simplify_eq; lia.
Qed.

Lemma count_marks_full (l : list (option cell)) :
  (count_mark X l + count_mark O l = length l)%nat →
  forallb (λ s, match s with None => true | Some c => truthy (Some c) end) l = true.
Proof.
  induction l as [|s l IH]; simpl; [done|].
  pose proof (count_marks_le l).
  repeat case_decide; simplify_eq; simpl; intros Heq; try lia;
    apply IH; lia.
Qed.

Lemma handleClick_marks st i :
  board9 (squares st) → 0 ≤ i ≤ 8 →
  board9 (squares (handleClick st i))
  ∧ marks (squares (handleClick st i))
    = (marks (squares st)
       + (if truthy (get (squares st) i)
             || has_winner (calculateWinner (squares st))
          then 0 else 1))%nat.
Proof.
  intros Hb Hi. unfold marks.
  destruct (truthy (get (squares st) i)) eqn:H1; simpl.
  { rewrite handleClick_rejected by auto. split; [done|lia]. }
  destruct (has_winner (calculateWinner (squares st))) eqn:H2.
  { rewrite handleClick_rejected by auto. split; [done|lia]. }
  rewrite handleClick_accepted by done. simpl.
  destruct (put_slice_board9 (squares st) i (Mk (turn_mark (isXNext st))) Hb Hi)
    as [Heq Hb'].
  split; [done|]. rewrite Heq. simpl.
  pose proof (board9_free _ _ Hb Hi H1) as Hfree.
  pose proof (count_mark_insert X _ _ _ (Some (Mk (turn_mark (isXNext st)))) Hfree) as HX.
  pose proof (count_mark_insert O _ _ _ (Some (Mk (turn_mark (isXNext st)))) Hfree) as HO.
  destruct (isXNext st); simpl in *;
    repeat (case_decide; simplify_eq); lia.
Qed.

Lemma play_marks st js :
  board9 (squares st) → Forall (λ i, 0 ≤ i ≤ 8) js →
  board9 (squares (play st js))
  ∧ marks (squares (play st js)) = (marks (squares st) + accepted_clicks st js)%nat.
Proof.
  intros Hb Hjs. revert st Hb.
  induction Hjs as [|i js Hi _ IH]; intros st Hb; simpl.
  - split; [done|lia].
  - destruct (handleClick_marks st i Hb Hi) as [Hb' Hm].
    destruct (IH _ Hb') as [Hb'' Hm']. split; [done|].
    rewrite Hm', Hm. lia.
Qed.

(** X8. In a game played on the nine squares from the first render, the
    number of marks on the board is the number of clicks that were
    accepted, and no more than nine clicks are ever accepted. *)
Theorem accepted_clicks_bound (e : env) (js : list Z) :
  Forall (λ i, 0 ≤ i ≤ 8) js →
  marks (squares (play (initial e) js)) = accepted_clicks (initial e) js
  ∧ (accepted_clicks (initial e) js ≤ 9)%nat.
Proof.
  intros Hjs.
  destruct (play_marks (initial e) js Array9_null_board9 Hjs) as [Hb Hm].
  change (marks (squares (initial e))) with 0%nat in Hm. simpl in Hm.
  split; [done|]. rewrite <- Hm.
  destruct Hb as (Hlen & _). unfold marks.
  pose proof (count_marks_le (elems (squares (play (initial e) js)))). lia.
Qed.

Lemma accepted_clicks_bound_witness :
  accepted_clicks (initial env0) [0; 0; 4; 1; 5; 2; 8; 7] = 5%nat
  ∧ marks (squares (play (initial env0) [0; 0; 4; 1; 5; 2; 8; 7])) = 5%nat.
Proof.
  assert (Forall (λ i, 0 ≤ i ≤ 8) [0; 0; 4; 1; 5; 2; 8; 7]) as Hjs
    by (repeat constructor; lia).
  pose proof (accepted_clicks_bound env0 _ Hjs) as [Hm _].
  split; [vm_compute; reflexivity|].
  rewrite Hm. vm_compute. reflexivity.
Defined.

(** X9. Once nine clicks have been accepted the game is over: the board
    is full, the outcome is a win or a draw -- a draw exactly when no line
    is completed -- and every further click on the nine squares is
    ignored. *)
Theorem nine_moves_end_game (e : env) (js : list Z) :
  Forall (λ i, 0 ≤ i ≤ 8) js →
  accepted_clicks (initial e) js = 9%nat →
  let st := play (initial e) js in
  all_occupied (squares st)
  ∧ outcome (squares st) ≠ InProgress
  ∧ (outcome (squares st) = Draw ↔ calculateWinner (squares st) = None)
  ∧ (∀ i, 0 ≤ i ≤ 8 → handleClick st i = st).
Proof.
  intros Hjs Hnine st.
  destruct (play_marks (initial e) js Array9_null_board9 Hjs) as [Hb Hm].
  change (marks (squares (initial e))) with 0%nat in Hm. simpl in Hm.
  fold st in Hb, Hm. rewrite Hnine in Hm.
  assert (every_Boolean (squares st) = true) as Hfull.
  { apply count_marks_full. destruct Hb as (Hlen & _).
    unfold marks in Hm. lia. }
  pose proof (proj1 (every_Boolean_board9 _ Hb) Hfull) as Hocc.
  split_and!.
  - exact Hocc.
  - rewrite outcome_InProgress. intros [_ Hf]. congruence.
  - rewrite outcome_Draw. tauto.
  - intros i Hi. apply handleClick_rejected. left. by apply Hocc.
Qed.

Lemma nine_moves_end_game_witness :
  accepted_clicks (initial env0) [0; 1; 2; 4; 3; 5; 7; 6; 8] = 9%nat
  ∧ outcome (squares (play (initial env0) [0; 1; 2; 4; 3; 5; 7; 6; 8])) = Draw.
Proof.
  assert (Forall (λ i, 0 ≤ i ≤ 8) [0; 1; 2; 4; 3; 5; 7; 6; 8]) as Hjs
    by (repeat constructor; lia).
  assert (accepted_clicks (initial env0) [0; 1; 2; 4; 3; 5; 7; 6; 8] = 9%nat) as Hn
    by (vm_compute; reflexivity).
  split; [exact Hn|].
  pose proof (nine_moves_end_game env0 _ Hjs Hn) as (_ & _ & Hd & _).
  apply Hd. vm_compute. reflexivity.
Defined.

(** ** Sessions: events, effects and reloads *)

Lemma offered_click st i : offered st (ClickSquare i) ↔ 0 ≤ i ≤ 8.
Proof.
  change (offered st (ClickSquare i))
    with (i ∈ sq_onClick <$> concat (Board (squares st) id)).
  change (sq_onClick <$> concat (Board (squares st) id))
    with [0; 1; 2; 3; 4; 5; 6; 7; 8].
  split.
  - intros Hin. repeat (apply elem_of_cons in Hin as [->|Hin]; [lia|]).
    by apply elem_of_nil in Hin.
  - intros Hi.
    destruct (grid_cases i Hi) as [->|[->|[->|[->|[->|[->|[->|[->| ->]]]]]]]];
      repeat ((by apply list_elem_of_here) || apply list_elem_of_further).
Qed.

Lemma offered_theme st t : offered st (ChooseTheme t) ↔ t ∈ THEMES.
Proof.
  change (offered st (ChooseTheme t))
    with (t ∈ tb_onClick <$> theme_options (theme st) id).
  unfold theme_options. rewrite <- list_fmap_compose.
  by rewrite list_fmap_id.
Qed.

Lemma getInitialTheme_in_THEMES e : getInitialTheme e ∈ THEMES.
Proof.
  unfold getInitialTheme.
  assert (∀ m, system_theme m ∈ THEMES) as Hsys
    by (intros [| |[]]; by apply includes_elem_of).
  destruct (stored_theme e) as [stored|]; [|done].
  destruct (negb (String.eqb stored "") && includes THEMES stored) eqn:Hok; [|done].
  apply andb_true_iff in Hok as [_ Hinc]. by apply includes_elem_of.
Qed.

(** What the page keeps true of its state. *)
Lemma handle_invariant st ev :
  offered st ev →
  board9 (squares st) ∧ theme st ∈ THEMES ∧ reachable st →
  board9 (squares (handle st ev)) ∧ theme (handle st ev) ∈ THEMES
  ∧ reachable (handle st ev).
Proof.
  intros Hev (Hb & Ht & Hr). destruct ev as [i| | | |t]; simpl.
  - apply offered_click in Hev.
    split; [by apply handleClick_marks|]. split; [|by apply reach_click].
    destruct (handleClick_fixed st i) as [_ Hfix].
    destruct (truthy (get (squares st) i) ||
              has_winner (calculateWinner (squares st))) eqn:Hg.
    + rewrite Hfix; [done|by apply orb_true_iff].
    + apply orb_false_iff in Hg as [H1 H2]. by rewrite handleClick_accepted.
  - split; [apply Array9_null_board9|]. split; [done|by apply reach_restart].
  - split; [done|]. split; [done|by apply reach_dialog].
  - split; [done|]. split; [done|by apply reach_dialog].
  - apply offered_theme in Hev. split; [done|]. split; [done|by apply reach_theme].
Qed.

Lemma run_invariant evs st :
  session st evs →
  board9 (squares st) ∧ theme st ∈ THEMES ∧ reachable st →
  board9 (squares (run st evs)) ∧ theme (run st evs) ∈ THEMES
  ∧ reachable (run st evs).
Proof.
  revert st. induction evs as [|ev evs IH]; intros st Hs Hinv; [done|].
  destruct Hs as [Hev Hs]. apply IH; [done|]. by apply handle_invariant.
Qed.

Lemma initial_invariant e :
  board9 (squares (initial e)) ∧ theme (initial e) ∈ THEMES
  ∧ reachable (initial e).
Proof.
  split; [apply Array9_null_board9|].
  split; [apply getInitialTheme_in_THEMES|apply reach_initial].
Qed.

(** X10. Through the rendered page -- square clicks, the restart buttons,
    the settings button and the theme dialog -- the squares always form a
    9-cell array without empty slots or extra properties, the theme is
    always one of [THEMES], and the state is one of the reachable states
    of the game rules. *)
Theorem session_invariant (e : env) (evs : list event) :
  session (initial e) evs →
  board9 (squares (run (initial e) evs))
  ∧ theme (run (initial e) evs) ∈ THEMES
  ∧ reachable (run (initial e) evs).
Proof. intros Hs. apply run_invariant; [done|apply initial_invariant]. Qed.

Lemma session_invariant_witness :
  session (initial env0) [ClickSquare 4; OpenSettings; ChooseTheme "ocean";
                          ClickSquare 4; ClickSquare 0; ClickRestart]
  ∧ board9 (squares (run (initial env0)
                         [ClickSquare 4; OpenSettings; ChooseTheme "ocean";
                          ClickSquare 4; ClickSquare 0; ClickRestart])).
Proof.
  assert (session (initial env0)
                  [ClickSquare 4; OpenSettings; ChooseTheme "ocean";
                   ClickSquare 4; ClickSquare 0; ClickRestart]) as Hs.
  { simpl. split_and!; try exact I.
    - apply (offered_click (initial env0) 4). lia.
    - apply (offered_theme (initial env0) "ocean"). by apply includes_elem_of.
    - apply (offered_click (initial env0) 4). lia.
    - apply (offered_click (initial env0) 0). lia. }
  split; [exact Hs|].
  exact (proj1 (session_invariant env0 _ Hs)).
Defined.

(** Two states with the same squares and turn. *)
Lemma handle_same_game s1 s2 ev :
  squares s1 = squares s2 → isXNext s1 = isXNext s2 →
  squares (handle s1 ev) = squares (handle s2 ev)
  ∧ isXNext (handle s1 ev) = isXNext (handle s2 ev).
Proof.
  intros Hsq Hx. destruct ev as [i| | | |t]; simpl; try done.
  unfold handleClick. rewrite Hsq, Hx.
  by destruct (truthy _ || has_winner _).
Qed.

Lemma handle_theme_event st ev :
  is_theme_event ev = true →
  squares (handle st ev) = squares st ∧ isXNext (handle st ev) = isXNext st.
Proof. by destruct ev. Qed.

Lemma handle_game_event st ev :
  is_theme_event ev = false →
  theme (handle st ev) = theme st
  ∧ themeDialogOpen (handle st ev) = themeDialogOpen st.
Proof.
  destruct ev as [i| | | |t]; try done. intros _. simpl.
  unfold handleClick. by destruct (truthy _ || has_winner _).
Qed.

Lemma handle_same_theme s1 s2 ev :
  theme s1 = theme s2 → themeDialogOpen s1 = themeDialogOpen s2 →
  theme (handle s1 ev) = theme (handle s2 ev)
  ∧ themeDialogOpen (handle s1 ev) = themeDialogOpen (handle s2 ev).
Proof.
  intros Ht Hd. destruct ev as [i| | | |t]; simpl; try done.
  unfold handleClick.
  by destruct (truthy _ || has_winner _), (truthy _ || has_winner _).
Qed.

Lemma run_same_game evs s1 s2 :
  squares s1 = squares s2 → isXNext s1 = isXNext s2 →
  squares (run s1 evs) = squares (run s2 evs)
  ∧ isXNext (run s1 evs) = isXNext (run s2 evs).
Proof.
  revert s1 s2. induction evs as [|ev evs IH]; intros s1 s2 Hsq Hx; [done|].
  simpl. destruct (handle_same_game s1 s2 ev Hsq Hx). by apply IH.
Qed.

Lemma run_game_filter evs s1 s2 :
  squares s1 = squares s2 → isXNext s1 = isXNext s2 →
  squares (run s1 evs)
  = squares (run s2 (List.filter (λ ev, negb (is_theme_event ev)) evs))
  ∧ isXNext (run s1 evs)
    = isXNext (run s2 (List.filter (λ ev, negb (is_theme_event ev)) evs)).
Proof.
  revert s1 s2. induction evs as [|ev evs IH]; intros s1 s2 Hsq Hx; [done|].
  simpl. destruct (is_theme_event ev) eqn:Hev; simpl.
  - destruct (handle_theme_event s1 ev Hev) as [H1 H2].
    apply IH; congruence.
  - destruct (handle_same_game s1 s2 ev Hsq Hx). by apply IH.
Qed.

Lemma run_theme_filter evs s1 s2 :
  theme s1 = theme s2 → themeDialogOpen s1 = themeDialogOpen s2 →
  theme (run s1 evs) = theme (run s2 (List.filter is_theme_event evs))
  ∧ themeDialogOpen (run s1 evs)
    = themeDialogOpen (run s2 (List.filter is_theme_event evs)).
Proof.
  revert s1 s2. induction evs as [|ev evs IH]; intros s1 s2 Ht Hd; [done|].
  simpl. destruct (is_theme_event ev) eqn:Hev; simpl.
  - destruct (handle_same_theme s1 s2 ev Ht Hd). by apply IH.
  - destruct (handle_game_event s1 ev Hev) as [H1 H2].
    apply IH; congruence.
Qed.

(** X11. The game and the theme do not interfere: the squares and the
    turn after a run of events are those after its square clicks and
    restarts alone, and the theme and the dialog flag are those after its
    settings and theme events alone. *)
Theorem game_and_theme_independent (st : state) (evs : list event) :
  let game := List.filter (λ ev, negb (is_theme_event ev)) evs in
  let themes := List.filter is_theme_event evs in
  squares (run st evs) = squares (run st game)
  ∧ isXNext (run st evs) = isXNext (run st game)
  ∧ theme (run st evs) = theme (run st themes)
  ∧ themeDialogOpen (run st evs) = themeDialogOpen (run st themes).
Proof.
  simpl.
  destruct (run_game_filter evs st st eq_refl eq_refl).
  destruct (run_theme_filter evs st st eq_refl eq_refl).
  by split_and!.
Qed.

(** X12. A restart forgets the game played so far: whatever the state,
    the events that follow it give the same squares and turn as they give
    from the first render; the theme chosen before is kept. *)
Theorem restart_forgets (st : state) (e : env) (evs : list event) :
  squares (run (restartGame st) evs) = squares (run (initial e) evs)
  ∧ isXNext (run (restartGame st) evs) = isXNext (run (initial e) evs)
  ∧ theme (restartGame st) = theme st
  ∧ themeDialogOpen (restartGame st) = themeDialogOpen st.
Proof.
  destruct (run_same_game evs (restartGame st) (initial e) eq_refl eq_refl).
  by split_and!.
Qed.

Lemma run_effects_mount st p :
  let q := run_effects None st p in
  stored_theme q.1 = Some (theme st)
  ∧ dataset_theme q.2 = Some (theme st)
  ∧ dialog_shown q.2 = themeDialogOpen st
  ∧ prefers_dark q.1 = prefers_dark p.1.
Proof. done. Qed.

Lemma run_effects_update old st p :
  stored_theme p.1 = Some (theme old)
  ∧ dataset_theme p.2 = Some (theme old)
  ∧ dialog_shown p.2 = themeDialogOpen old →
  let q := run_effects (Some old) st p in
  stored_theme q.1 = Some (theme st)
  ∧ dataset_theme q.2 = Some (theme st)
  ∧ dialog_shown q.2 = themeDialogOpen st
  ∧ prefers_dark q.1 = prefers_dark p.1.
Proof.
  intros (Hs & Hd & Hm). unfold run_effects.
  destruct (String.eqb_spec (theme old) (theme st)) as [Ht|Ht];
    destruct (Bool.eqb_spec (themeDialogOpen old) (themeDialogOpen st)) as [Ho|Ho];
    simpl; rewrite <- ?Ht, <- ?Ho; done.
Qed.

Lemma dispatch_sync p ev :
  stored_theme (browser p) = Some (theme (ui p))
  ∧ dataset_theme (document p) = Some (theme (ui p))
  ∧ dialog_shown (document p) = themeDialogOpen (ui p) →
  stored_theme (browser (dispatch p ev)) = Some (theme (ui (dispatch p ev)))
  ∧ dataset_theme (document (dispatch p ev)) = Some (theme (ui (dispatch p ev)))
  ∧ dialog_shown (document (dispatch p ev)) = themeDialogOpen (ui (dispatch p ev))
  ∧ prefers_dark (browser (dispatch p ev)) = prefers_dark (browser p)
  ∧ ui (dispatch p ev) = handle (ui p) ev.
Proof.
  intros Hsync.
  pose proof (run_effects_update (ui p) (handle (ui p) ev)
                (browser p, document p) Hsync) as (H1 & H2 & H3 & H4).
  by split_and!.
Qed.

Lemma browse_sync evs p :
  stored_theme (browser p) = Some (theme (ui p))
  ∧ dataset_theme (document p) = Some (theme (ui p))
  ∧ dialog_shown (document p) = themeDialogOpen (ui p) →
  let q := browse p evs in
  stored_theme (browser q) = Some (theme (ui q))
  ∧ dataset_theme (document q) = Some (theme (ui q))
  ∧ dialog_shown (document q) = themeDialogOpen (ui q)
  ∧ prefers_dark (browser q) = prefers_dark (browser p)
  ∧ ui q = run (ui p) evs.
Proof.
  revert p. induction evs as [|ev evs IH]; intros p Hsync; simpl.
  - destruct Hsync as (H1 & H2 & H3). by split_and!.
  - destruct (dispatch_sync p ev Hsync) as (H1 & H2 & H3 & H4 & H5).
    destruct (IH (dispatch p ev)) as (I1 & I2 & I3 & I4 & I5); [by split_and!|].
    split_and!; try done; congruence.
Qed.

Lemma mount_browse_sync e evs :
  let p := browse (mount e) evs in
  stored_theme (browser p) = Some (theme (ui p))
  ∧ dataset_theme (document p) = Some (theme (ui p))
  ∧ dialog_shown (document p) = themeDialogOpen (ui p)
  ∧ prefers_dark (browser p) = prefers_dark e
  ∧ ui p = run (initial e) evs.
Proof. apply (browse_sync evs (mount e)). by split_and!. Qed.

(** X13. The two effects keep the browser in step with the state: after
    loading the page and after every event, the stored ["theme"]
    preference and the root element's [data-theme] are the current theme
    and the dialog is shown exactly when [themeDialogOpen] holds; the
    state itself is the one the handlers alone produce. *)
Theorem effects_in_sync (e : env) (evs : list event) :
  let p := browse (mount e) evs in
  stored_theme (browser p) = Some (theme (ui p))
  ∧ dataset_theme (document p) = Some (theme (ui p))
  ∧ dialog_shown (document p) = themeDialogOpen (ui p)
  ∧ prefers_dark (browser p) = prefers_dark e
  ∧ ui p = run (initial e) evs.
Proof. apply mount_browse_sync. Qed.

Lemma getInitialTheme_stored (t : string) (m : media) :
  t ∈ THEMES →
  getInitialTheme {| stored_theme := Some t; prefers_dark := m |} = t.
Proof.
  intros Hin. unfold getInitialTheme. cbn [stored_theme prefers_dark].
  apply includes_elem_of in Hin as Hinc. rewrite Hinc.
  destruct (String.eqb_spec t "") as [->|_]; [discriminate Hinc|done].
Qed.

(** X14. The theme survives a reload: after a session on the rendered
    page, loading the page again with what was stored starts with the
    theme the session ended with, whatever the system colour scheme
    reports then.  In particular the system preference only counts on a
    first visit, where its result is stored at once. *)
Theorem theme_restored_on_reload (e : env) (evs : list event) (m : media) :
  session (initial e) evs →
  let p := browse (mount e) evs in
  let reload := mount {| stored_theme := stored_theme (browser p);
                         prefers_dark := m |} in
  theme (ui reload) = theme (ui p)
  ∧ stored_theme (browser reload) = stored_theme (browser p).
Proof.
  intros Hs p reload.
  destruct (mount_browse_sync e evs) as (Hst & _ & _ & _ & Hui).
  fold p in Hst, Hui.
  assert (theme (ui p) ∈ THEMES) as Hin.
  { rewrite Hui. by apply run_invariant; [|apply initial_invariant]. }
  assert (theme (ui reload) = theme (ui p)) as Heq.
  { change (theme (ui reload))
      with (getInitialTheme {| stored_theme := stored_theme (browser p);
                               prefers_dark := m |}).
    rewrite Hst. by apply getInitialTheme_stored. }
  split; [exact Heq|].
  change (stored_theme (browser reload)) with (Some (theme (ui reload))).
  by rewrite Heq, Hst.
Qed.

Lemma theme_restored_on_reload_witness :
  let evs := [OpenSettings; ChooseTheme "sunset"%string; ClickSquare 4] in
  session (initial env0) evs
  ∧ theme (ui (mount {| stored_theme := stored_theme (browser (browse (mount env0) evs));
                        prefers_dark := MediaMatches true |})) = "sunset"%string.
Proof.
  intros evs.
  assert (session (initial env0) evs) as Hs.
  { simpl. split_and!; try exact I.
    - apply (offered_theme (setThemeDialogOpen (initial env0) true) "sunset").
      by apply includes_elem_of.
    - apply (offered_click (selectTheme (setThemeDialogOpen (initial env0) true)
                                        "sunset") 4). lia. }
  split; [exact Hs|].
  exact (proj1 (theme_restored_on_reload env0 evs (MediaMatches true) Hs)).
Defined.
